(** * bropkg.package: the [Package] value object

    A shallow embedding of [src/bropkg/package.py] and the properties of its
    canonical identity ([__str__]), ordering ([__lt__]) and path matching
    ([matches_path]).

    Python strings are modelled as [String.string]; list indices as [Z], so
    that the negative offsets used by [matches_path] are written as in the
    source; an operation that can raise returns a [result]. *)

From Stdlib Require Import ZArith List Bool Ascii String Lia.
Import ListNotations.

Local Open Scope Z_scope.

(** ** The Python builtins the module relies on *)

Module Py.

Inductive exn : Type := IndexError.

Inductive result (A : Type) : Type :=
| Ok (a : A)
| Raise (e : exn).
Arguments Ok {A} a.
Arguments Raise {A} e.

Definition bind {A B : Type} (m : result A) (k : A -> result B) : result B :=
  match m with
  | Ok a => k a
  | Raise e => Raise e
  end.

(** Truth value of an optional string argument: [None] and [''] are
    false, every other string is true. *)
Definition truthy (o : option string) : bool :=
  match o with
  | None => false
  | Some s => negb (String.eqb s EmptyString)
  end.

(** How [str.format] renders an argument for a [{}] field. *)
Definition render (o : option string) : string :=
  match o with
  | Some s => s
  | None => "None"%string
  end.

(** [s.split(sep)] for a one-character separator: never empty, and empty
    segments are kept. *)
Fixpoint split (sep : ascii) (s : string) : list string :=
  match s with
  | EmptyString => [EmptyString]
  | String c r =>
      if Ascii.eqb c sep then EmptyString :: split sep r
      else match split sep r with
           | [] => [String c EmptyString]
           | seg :: segs => String c seg :: segs
           end
  end.

(** [len(l)] *)
Definition len {A : Type} (l : list A) : Z := Z.of_nat (List.length l).

(** [l[i]]: indices [0 .. len-1] count from the front, [-len .. -1] from
    the back, anything else raises [IndexError]. *)
Definition getitem {A : Type} (l : list A) (i : Z) : result A :=
  let j := if i <? 0 then len l + i else i in
  if (j <? 0) || (len l <=? j) then Raise IndexError
  else match nth_error l (Z.to_nat j) with
       | Some x => Ok x
       | None => Raise IndexError
       end.

(** [list(enumerate(l))], counting from [start]. *)
Fixpoint enumerate_from {A : Type} (start : Z) (l : list A) : list (Z * A) :=
  match l with
  | [] => []
  | x :: r => (start, x) :: enumerate_from (start + 1) r
  end.

Definition enumerate {A : Type} (l : list A) : list (Z * A) :=
  enumerate_from 0 l.

(** [a < b] on characters (by code) and on strings (first difference
    decides, a proper prefix is smaller). *)
Definition chr_ltb (a b : ascii) : bool :=
  (N_of_ascii a <? N_of_ascii b)%N.

Fixpoint str_ltb (a b : string) : bool :=
  match a, b with
  | EmptyString, EmptyString => false
  | EmptyString, String _ _ => true
  | String _ _, EmptyString => false
  | String x a', String y b' =>
      if chr_ltb x y then true
      else if Ascii.eqb x y then str_ltb a' b'
      else false
  end.

End Py.

Import Py.

Notation "x <- m ;; k" := (bind m (fun x => k))
  (at level 61, m at next level, right associativity).

(** ** The class *)

Module Package.

Record t : Type := mk {
  git_url : string;
  name : string;
  source : option string;
  module_dir : option string
}.

(** [Package(git_url, source=None, module_dir=None)] *)
Definition __init__ (git_url : string) (source module_dir : option string)
  : result t :=
  name <- getitem (split "/" git_url) (-1) ;;
  Ok (mk git_url name source module_dir).

(** [str(self)], the canonical identity. *)
Definition __str__ (self : t) : string :=
  if truthy (source self) then
    if truthy (module_dir self) then
      (render (source self) ++ "/" ++ render (module_dir self) ++ "/"
         ++ name self)%string
    else
      (render (source self) ++ "/" ++ name self)%string
  else
    git_url self.

Definition __repr__ (self : t) : string := git_url self.

Definition __lt__ (self other : t) : bool :=
  str_ltb (__str__ self) (__str__ other).

(** The [for] loop of [matches_path]: [items] is
    [reversed(list(enumerate(path_parts)))] and [n] is [len(path_parts)]. *)
Fixpoint compare_parts (n : Z) (pkg_path_parts : list string)
    (items : list (Z * string)) : result bool :=
  match items with
  | [] => Ok true
  | (i, part) :: rest =>
      let ri := i - n in
      q <- getitem pkg_path_parts ri ;;
      if negb (String.eqb part q) then Ok false
      else compare_parts n pkg_path_parts rest
  end.

Definition matches_path (self : t) (path : string) : result bool :=
  let path_parts := split "/" path in
  if truthy (source self) then
    let pkg_path := __str__ self in
    let pkg_path_parts := split "/" pkg_path in
    compare_parts (len path_parts) pkg_path_parts
      (rev (enumerate path_parts))
  else
    single <- (if len path_parts =? 1 then
                 last_part <- getitem path_parts (-1) ;;
                 Ok (String.eqb last_part (name self))
               else Ok false) ;;
    if single then Ok true
    else Ok (String.eqb path (git_url self)).

End Package.

Import Package.

(** ** Vocabulary of the specification *)

(** [has_char c s]: the character [c] occurs in [s]. *)
Fixpoint has_char (c : ascii) (s : string) : bool :=
  match s with
  | EmptyString => false
  | String x r => Ascii.eqb x c || has_char c r
  end.

(** [sep.join(l)] *)
Fixpoint join (sep : ascii) (l : list string) : string :=
  match l with
  | [] => EmptyString
  | [x] => x
  | x :: r => (x ++ String sep (join sep r))%string
  end.

(** The last [k] elements of [l]. *)
Definition last_n {A : Type} (k : nat) (l : list A) : list A :=
  skipn (List.length l - k) l.

(** The last segment of a split, as [[-1]] reads it. *)
Definition last_segment (s : string) : string :=
  last (split "/" s) EmptyString.

(** An empty string read as no value at all. *)
Definition drop_empty (o : option string) : option string :=
  match o with
  | Some EmptyString => None
  | _ => o
  end.

(** [s] ends with the character [c]. *)
Fixpoint ends_with (c : ascii) (s : string) : bool :=
  match s with
  | EmptyString => false
  | String x EmptyString => Ascii.eqb x c
  | String _ r => ends_with c r
  end.

(** A field is present when it holds a value the code takes as true. *)
Definition present (o : option string) : Prop := truthy o = true.
Definition absent (o : option string) : Prop := truthy o = false.

(** Lexicographic order by character code, as the specification words it:
    the strings agree on a common prefix, after which either the left one
    ends and the right one goes on, or the left one has the smaller
    character. *)
Inductive lex_lt : string -> string -> Prop :=
| lex_lt_prefix (p : string) (c : ascii) (r : string) :
    lex_lt p (p ++ String c r)
| lex_lt_differ (p : string) (x y : ascii) (r1 r2 : string) :
    (N_of_ascii x < N_of_ascii y)%N ->
    lex_lt (p ++ String x r1) (p ++ String y r2).

(** ** Facts about the builtins *)

Section Split.

Variable sep : ascii.

Lemma split_not_nil (s : string) : split sep s <> [].
Proof.
  destruct s as [|c r]; simpl; [discriminate|].
  destruct (Ascii.eqb c sep); [discriminate|].
  destruct (split sep r); discriminate.
Qed.

Lemma split_app_sep (a b : string) :
  split sep (a ++ String sep b) = split sep a ++ split sep b.
Proof.
  induction a as [|x a IH]; simpl.
  - now rewrite Ascii.eqb_refl.
  - destruct (Ascii.eqb x sep); rewrite IH; [reflexivity|].
    pose proof (split_not_nil a) as Hne.
    destruct (split sep a); [contradiction|reflexivity].
Qed.

Lemma split_no_sep (s : string) :
  has_char sep s = false -> split sep s = [s].
Proof.
  induction s as [|x s IH]; simpl; [reflexivity|].
  intros H. apply orb_false_iff in H as [Hx Hs].
  now rewrite Hx, (IH Hs).
Qed.

Lemma split_single (s : string) :
  List.length (split sep s) = 1%nat -> split sep s = [s].
Proof.
  induction s as [|x s IH]; simpl; [reflexivity|].
  destruct (Ascii.eqb x sep).
  - simpl. intros H. pose proof (split_not_nil s) as Hne.
    destruct (split sep s); [contradiction|discriminate].
  - pose proof (split_not_nil s) as Hne.
    destruct (split sep s) as [|seg segs] eqn:E; [contradiction|].
    simpl. intros H. destruct segs; [|discriminate].
    specialize (IH eq_refl). now inversion IH.
Qed.

Lemma split_segments (s : string) :
  Forall (fun seg => has_char sep seg = false) (split sep s).
Proof.
  induction s as [|x s IH]; simpl.
  - now constructor.
  - destruct (Ascii.eqb x sep) eqn:Hx.
    + now constructor.
    + destruct (split sep s) as [|seg segs].
      * constructor; [simpl; now rewrite Hx|constructor].
      * inversion IH; subst. constructor; [simpl; now rewrite Hx|assumption].
Qed.

Lemma split_join (l : list string) :
  l <> [] ->
  Forall (fun seg => has_char sep seg = false) l ->
  split sep (join sep l) = l.
Proof.
  induction l as [|x r IH]; [contradiction|].
  intros _ H. inversion H as [|? ? Hx Hr]; subst.
  destruct r as [|y r].
  - simpl. now apply split_no_sep.
  - change (join sep (x :: y :: r))
      with (x ++ String sep (join sep (y :: r)))%string.
    rewrite split_app_sep, (split_no_sep _ Hx), IH by (assumption || discriminate).
    reflexivity.
Qed.

Lemma join_split (s : string) : join sep (split sep s) = s.
Proof.
  induction s as [|x s IH]; simpl; [reflexivity|].
  destruct (Ascii.eqb x sep) eqn:Hx.
  - apply Ascii.eqb_eq in Hx; subst x.
    pose proof (split_not_nil s) as Hne.
    destruct (split sep s) eqn:E; [contradiction|].
    simpl in *. now rewrite IH.
  - destruct (split sep s) as [|seg segs] eqn:E.
    + now destruct (split_not_nil s).
    + rewrite <- IH. destruct segs; reflexivity.
Qed.

End Split.

Section Indexing.

Context {A : Type}.

Lemma len_app (l1 l2 : list A) : len (l1 ++ l2) = len l1 + len l2.
Proof. unfold len. rewrite length_app. lia. Qed.

(** A negative index [k - len l] reads position [k]. *)
Lemma getitem_from_end (l : list A) (k : nat) (x : A) :
  nth_error l k = Some x -> getitem l (Z.of_nat k - len l) = Ok x.
Proof.
  intros H.
  assert (Hk : (k < List.length l)%nat) by (apply nth_error_Some; congruence).
  unfold getitem, len.
  replace (Z.of_nat k - Z.of_nat (List.length l) <? 0) with true
    by (symmetry; apply Z.ltb_lt; lia).
  replace (Z.of_nat (List.length l) + (Z.of_nat k - Z.of_nat (List.length l)))
    with (Z.of_nat k) by lia.
  replace (Z.of_nat k <? 0) with false by (symmetry; apply Z.ltb_ge; lia).
  replace (Z.of_nat (List.length l) <=? Z.of_nat k) with false
    by (symmetry; apply Z.leb_gt; lia).
  simpl. now rewrite Nat2Z.id, H.
Qed.

(** Below [-len l] the index is out of range. *)
Lemma getitem_below (l : list A) (i : Z) :
  i < - len l -> getitem l i = Raise IndexError.
Proof.
  intros H. unfold getitem.
  assert (Hl : 0 <= len l) by (unfold len; lia).
  replace (i <? 0) with true by (symmetry; apply Z.ltb_lt; lia).
  replace (len l + i <? 0) with true by (symmetry; apply Z.ltb_lt; lia).
  reflexivity.
Qed.

Lemma getitem_last (l : list A) (x : A) : getitem (l ++ [x]) (-1) = Ok x.
Proof.
  replace (-1) with (Z.of_nat (List.length l) - len (l ++ [x]))
    by (rewrite len_app; unfold len; simpl; lia).
  apply getitem_from_end.
  rewrite nth_error_app2, Nat.sub_diag by lia. reflexivity.
Qed.

Lemma enumerate_from_Forall (P : Z * A -> Prop) (l : list A) :
  forall start,
    (forall j x, nth_error l j = Some x -> P (start + Z.of_nat j, x)) ->
    Forall P (enumerate_from start l).
Proof.
  induction l as [|a l IH]; intros start H; simpl; constructor.
  - replace start with (start + Z.of_nat 0) by (simpl; lia).
    now apply H.
  - apply IH. intros j x Hj.
    replace (start + 1 + Z.of_nat j) with (start + Z.of_nat (S j)) by lia.
    now apply H.
Qed.

Lemma length_last_n (k : nat) (l : list A) :
  (k <= List.length l)%nat -> List.length (last_n k l) = k.
Proof. intros H. unfold last_n. rewrite length_skipn. lia. Qed.

End Indexing.

Section CompareParts.

Variables (n : Z) (pkg_path_parts : list string).

Lemma compare_parts_app (a b : list (Z * string)) :
  compare_parts n pkg_path_parts (a ++ b) =
  (ok <- compare_parts n pkg_path_parts a ;;
   if ok then compare_parts n pkg_path_parts b else Ok false).
Proof.
  induction a as [|[i part] a IH]; simpl; [reflexivity|].
  destruct (getitem pkg_path_parts (i - n)) as [q|e]; simpl; [|reflexivity].
  destruct (String.eqb part q); simpl; [apply IH|reflexivity].
Qed.

Lemma compare_parts_all (items : list (Z * string)) :
  Forall (fun ip => getitem pkg_path_parts (fst ip - n) = Ok (snd ip)) items ->
  compare_parts n pkg_path_parts items = Ok true.
Proof.
  induction 1 as [|[i part] items H _ IH]; simpl in *; [reflexivity|].
  rewrite H. simpl. now rewrite String.eqb_refl.
Qed.

Lemma compare_parts_mismatch (i : Z) (part q : string)
    (rest : list (Z * string)) :
  getitem pkg_path_parts (i - n) = Ok q -> part <> q ->
  compare_parts n pkg_path_parts ((i, part) :: rest) = Ok false.
Proof.
  intros Hq Hne. simpl. rewrite Hq. simpl.
  apply String.eqb_neq in Hne. now rewrite Hne.
Qed.

End CompareParts.

Section Last.

Context {A : Type}.

Lemma getitem_minus1 (l : list A) (d : A) :
  l <> [] -> getitem l (-1) = Ok (last l d).
Proof.
  intros H. destruct (exists_last H) as [l' [x ->]].
  now rewrite getitem_last, last_last.
Qed.

Lemma last_app_cons (l1 l2 : list A) (x d : A) :
  last (l1 ++ x :: l2) d = last (x :: l2) d.
Proof.
  induction l1 as [|a l1 IH]; [reflexivity|].
  change ((a :: l1) ++ x :: l2) with (a :: (l1 ++ x :: l2)).
  destruct (l1 ++ x :: l2) eqn:E; [now destruct l1|].
  simpl in *. exact IH.
Qed.

Lemma enumerate_from_app (l1 l2 : list A) (start : Z) :
  enumerate_from start (l1 ++ l2) =
  enumerate_from start l1 ++ enumerate_from (start + len l1) l2.
Proof.
  revert start. induction l1 as [|a l1 IH]; intros start; simpl.
  - unfold len. simpl. now rewrite Z.add_0_r.
  - rewrite IH. do 3 f_equal. unfold len. simpl List.length. lia.
Qed.

End Last.

Lemma last_segment_no_slash (s : string) :
  has_char "/" (last_segment s) = false.
Proof.
  unfold last_segment.
  pose proof (split_segments "/" s) as H.
  pose proof (split_not_nil "/" s) as Hne.
  destruct (exists_last Hne) as [l' [x E]]. rewrite E in *.
  rewrite last_last. apply Forall_app in H as [_ H]. now inversion H.
Qed.

Lemma last_segment_app (a b : string) :
  last_segment (a ++ String "/" b) = last_segment b.
Proof.
  unfold last_segment. rewrite split_app_sep.
  pose proof (split_not_nil "/" b) as Hne.
  destruct (split "/" b) as [|x l]; [contradiction|].
  apply last_app_cons.
Qed.

Lemma last_segment_plain (s : string) :
  has_char "/" s = false -> last_segment s = s.
Proof. intros H. unfold last_segment. now rewrite split_no_sep. Qed.

(** ** The constructor never raises *)

Lemma init_eq (g : string) (s m : option string) :
  __init__ g s m = Ok (mk g (last_segment g) s m).
Proof.
  unfold __init__.
  now rewrite (getitem_minus1 _ EmptyString (split_not_nil "/" g)).
Qed.

Lemma init_inv (g : string) (s m : option string) (P : t) :
  __init__ g s m = Ok P -> P = mk g (last_segment g) s m.
Proof. rewrite init_eq. now inversion 1. Qed.

Lemma str_last_segment (P : t) :
  truthy (source P) = true ->
  has_char "/" (name P) = false ->
  last_segment (__str__ P) = name P.
Proof.
  intros Hs Hn. unfold __str__. rewrite Hs.
  destruct (truthy (module_dir P)).
  - change (render (source P) ++ "/" ++ render (module_dir P) ++ "/" ++ name P)%string
      with (render (source P) ++ String "/" (render (module_dir P) ++ String "/" (name P)))%string.
    rewrite !last_segment_app. now apply last_segment_plain.
  - change (render (source P) ++ "/" ++ name P)%string
      with (render (source P) ++ String "/" (name P))%string.
    rewrite last_segment_app. now apply last_segment_plain.
Qed.

(** ** The canonical identity *)

(** C3 as stated fails: a source that is present but empty does not give
    the identity [source/name]; the identity is [git_url]. *)
Lemma identity_cases_counterexample :
  ~ (forall (g : string) (s m : option string) (P : t),
        __init__ g s m = Ok P ->
        (s = None -> __str__ P = g)
        /\ (forall src, s = Some src -> m = None ->
              __str__ P = (src ++ "/" ++ name P)%string)
        /\ (forall src md, s = Some src -> m = Some md ->
              __str__ P = (src ++ "/" ++ md ++ "/" ++ name P)%string)).
Proof.
  intros H.
  destruct (H "https://github.com/org/repo"%string (Some EmptyString) None
              (mk "https://github.com/org/repo" "repo" (Some EmptyString) None)
              eq_refl) as [_ [Hsrc _]].
  specialize (Hsrc EmptyString eq_refl eq_refl). discriminate Hsrc.
Qed.

(** C3, amended. The canonical identity is [git_url] when the source is
    absent or empty, [source/name] when the source is non-empty and the
    module directory is absent or empty, and [source/module_dir/name] when
    both are non-empty. *)
Theorem identity_cases (g : string) (s m : option string) (P : t) :
  __init__ g s m = Ok P ->
  (s = None \/ s = Some EmptyString -> __str__ P = g)
  /\ (forall src, s = Some src -> src <> EmptyString ->
        m = None \/ m = Some EmptyString ->
        __str__ P = (src ++ "/" ++ name P)%string)
  /\ (forall src md, s = Some src -> src <> EmptyString ->
        m = Some md -> md <> EmptyString ->
        __str__ P = (src ++ "/" ++ md ++ "/" ++ name P)%string).
Proof.
  intros HP. apply init_inv in HP; subst P.
  unfold __str__; simpl. split; [|split].
  - intros [->| ->]; reflexivity.
  - intros src -> Hsrc Hm. apply String.eqb_neq in Hsrc. simpl.
    rewrite Hsrc. simpl. destruct Hm as [->| ->]; reflexivity.
  - intros src md -> Hsrc -> Hmd. apply String.eqb_neq in Hsrc, Hmd. simpl.
    rewrite Hsrc, Hmd. reflexivity.
Qed.

Lemma identity_cases_witness :
  __str__ (mk "https://github.com/org/repo" "repo" (Some EmptyString)
             (Some "sub"%string))
    = "https://github.com/org/repo"%string
  /\ __str__ (mk "https://github.com/org/repo" "repo" (Some "registry"%string)
                (Some EmptyString))
     = "registry/repo"%string
  /\ __str__ (mk "https://github.com/org/repo" "repo" (Some "registry"%string)
               (Some "sub"%string))
     = "registry/sub/repo"%string.
Proof.
  split; [|split].
  - exact (proj1 (identity_cases "https://github.com/org/repo" (Some EmptyString)
                    (Some "sub"%string) _ eq_refl) (or_intror eq_refl)).
  - exact (proj1 (proj2 (identity_cases "https://github.com/org/repo"
                           (Some "registry"%string) (Some EmptyString) _ eq_refl))
             "registry"%string eq_refl ltac:(discriminate) (or_intror eq_refl)).
  - exact (proj2 (proj2 (identity_cases "https://github.com/org/repo"
                           (Some "registry"%string) (Some "sub"%string) _ eq_refl))
             "registry"%string "sub"%string eq_refl ltac:(discriminate)
             eq_refl ltac:(discriminate)).
Defined.

(** ** The derived name *)

Lemma last_segment_empty (g : string) :
  last_segment g = EmptyString <->
  g = EmptyString \/ ends_with "/" g = true.
Proof.
  unfold last_segment.
  induction g as [|c r IH]; [simpl; tauto|].
  assert (Hr : r = EmptyString \/ r <> EmptyString)
    by (destruct r; [now left|now right]).
  assert (He : ends_with "/" (String c r) =
               if String.eqb r EmptyString then Ascii.eqb c "/"
               else ends_with "/" r) by (destruct r; reflexivity).
  rewrite He. clear He.
  pose proof (split_not_nil "/" r) as Hne.
  simpl split. destruct (Ascii.eqb c "/") eqn:Hc.
  - destruct Hr as [-> | Hr]; [simpl; tauto|].
    apply String.eqb_neq in Hr as Hr'. rewrite Hr'.
    destruct (split "/" r) as [|seg segs] eqn:E; [contradiction|].
    change (last (EmptyString :: seg :: segs) EmptyString)
      with (last (seg :: segs) EmptyString).
    rewrite IH. split; [intros [H|H]; [contradiction|now right]|].
    intros [H|H]; [discriminate|now right].
  - destruct (split "/" r) as [|seg segs] eqn:E; [contradiction|].
    destruct segs as [|y segs].
    + simpl. split; [discriminate|]. intros [H|H]; [discriminate|].
      exfalso. destruct Hr as [-> | Hr]; [discriminate|].
      apply String.eqb_neq in Hr as Hr'. rewrite Hr' in H.
      assert (Hsingle : split "/" r = [r])
        by (apply split_single; now rewrite E).
      rewrite E in Hsingle. inversion Hsingle; subst seg.
      simpl in IH. destruct IH as [_ IH]. now apply Hr, IH; right.
    + change (last (String c seg :: y :: segs) EmptyString)
        with (last (seg :: y :: segs) EmptyString).
      destruct Hr as [-> | Hr]; [discriminate|].
      apply String.eqb_neq in Hr as Hr'. rewrite Hr'.
      rewrite IH. split; [intros [H|H]; [contradiction|now right]|].
      intros [H|H]; [discriminate|now right].
Qed.

Lemma join_app_last (sep : ascii) (front : list string) (x : string) :
  front <> [] ->
  join sep (front ++ [x]) = (join sep front ++ String sep x)%string.
Proof.
  induction front as [|a front IH]; [contradiction|]. intros _.
  destruct front as [|b front]; [reflexivity|].
  change (join sep ((a :: b :: front) ++ [x]))
    with (a ++ String sep (join sep ((b :: front) ++ [x])))%string.
  rewrite IH by discriminate.
  change (join sep (a :: b :: front))
    with (a ++ String sep (join sep (b :: front)))%string.
  induction a as [|c a IHa]; simpl; [reflexivity|].
  f_equal. exact IHa.
Qed.

Lemma before_last_segment (g : string) :
  has_char "/" g = true ->
  exists pre, g = (pre ++ String "/" (last_segment g))%string.
Proof.
  intros Hg. unfold last_segment.
  pose proof (split_not_nil "/" g) as Hne.
  pose proof (join_split "/" g) as Hj.
  rewrite (app_removelast_last EmptyString Hne) in Hj.
  destruct (removelast (split "/" g)) as [|a front] eqn:E.
  - simpl in Hj. rewrite <- Hj in Hg at 1.
    pose proof (last_segment_no_slash g) as Hn. unfold last_segment in Hn.
    congruence.
  - rewrite join_app_last in Hj by discriminate. eauto.
Qed.

(** C5 as stated fails: a non-empty [git_url] that ends with a slash has
    a last segment, and that segment, hence the name, is empty. *)
Lemma name_nonempty_counterexample :
  ~ (forall (g : string) (s m : option string) (P : t),
        g <> EmptyString ->
        (1 <= List.length (split "/" g))%nat ->
        __init__ g s m = Ok P ->
        name P <> EmptyString
        /\ getitem (split "/" g) (-1) = Ok (name P)).
Proof.
  intros H.
  destruct (H "https://github.com/org/repo/"%string None None
              (mk "https://github.com/org/repo/" EmptyString None None))
    as [Hname _].
  - discriminate.
  - simpl. lia.
  - reflexivity.
  - now apply Hname.
Qed.

(** C5, amended. For every [git_url], the name of the package built from
    it is the last segment of [git_url] split on slashes, and it is empty
    exactly when [git_url] is empty or ends with a slash; so for a
    non-empty [git_url] that does not end with a slash the name is
    non-empty. *)
Theorem name_is_last_segment (g : string) (s m : option string) (P : t) :
  __init__ g s m = Ok P ->
  getitem (split "/" g) (-1) = Ok (name P)
  /\ (name P = EmptyString <-> g = EmptyString \/ ends_with "/" g = true)
  /\ (g <> EmptyString -> ends_with "/" g = false -> name P <> EmptyString).
Proof.
  intros HP. apply init_inv in HP; subst P. simpl. split; [|split].
  - apply getitem_minus1, split_not_nil.
  - apply last_segment_empty.
  - intros Hg He H. apply last_segment_empty in H as [H|H]; congruence.
Qed.

Lemma name_is_last_segment_witness :
  getitem (split "/" "https://github.com/org/repo") (-1) = Ok "repo"%string
  /\ name (mk "https://github.com/org/repo" "repo" None None) <> EmptyString.
Proof.
  destruct (name_is_last_segment "https://github.com/org/repo" None None
              (mk "https://github.com/org/repo" "repo" None None) eq_refl)
    as [Hlast [_ Hne]].
  split; [exact Hlast|].
  apply Hne; [discriminate|reflexivity].
Defined.

(** C7. A [git_url] without a slash is its own name; a [git_url] with a
    slash has as name what follows its last slash: the name holds no slash,
    [git_url] is some prefix, a slash, and the name, and the name is the
    only slash-free string that follows a slash of [git_url] to its end. *)
Theorem name_after_last_slash (g : string) (s m : option string) (P : t) :
  __init__ g s m = Ok P ->
  (has_char "/" g = false -> name P = g)
  /\ (has_char "/" g = true ->
      has_char "/" (name P) = false
      /\ (exists pre, g = (pre ++ String "/" (name P))%string)
      /\ (forall pre suf, g = (pre ++ String "/" suf)%string ->
            has_char "/" suf = false -> suf = name P)).
Proof.
  intros HP. apply init_inv in HP; subst P. simpl. split.
  - apply last_segment_plain.
  - intros Hg. split; [apply last_segment_no_slash|].
    split; [now apply before_last_segment|].
    intros pre suf -> Hsuf.
    now rewrite last_segment_app, last_segment_plain.
Qed.

Lemma name_after_last_slash_witness :
  name (mk "repo" "repo" None None) = "repo"%string
  /\ (exists pre,
        "https://github.com/org/repo"%string =
        (pre ++ String "/" (name (mk "https://github.com/org/repo" "repo" None None)))%string).
Proof.
  split.
  - exact (proj1 (name_after_last_slash "repo" None None
                    (mk "repo" "repo" None None) eq_refl) eq_refl).
  - exact (proj1 (proj2 (proj2 (name_after_last_slash "https://github.com/org/repo"
                                  None None
                                  (mk "https://github.com/org/repo" "repo" None None)
                                  eq_refl) eq_refl))).
Defined.

(** ** Matching without a source *)

Lemma matches_path_no_source (P : t) (path : string) :
  truthy (source P) = false ->
  has_char "/" (name P) = false ->
  matches_path P path =
  Ok (String.eqb path (name P) || String.eqb path (git_url P)).
Proof.
  intros Hs Hn. unfold matches_path. rewrite Hs.
  rewrite (getitem_minus1 _ EmptyString (split_not_nil "/" path)).
  destruct (len (split "/" path) =? 1) eqn:Hlen; simpl.
  - apply Z.eqb_eq in Hlen. unfold len in Hlen.
    rewrite (split_single "/" path) by lia. simpl.
    now destruct (String.eqb path (name P)).
  - destruct (String.eqb path (name P)) eqn:E; [|reflexivity].
    apply String.eqb_eq in E; subst path.
    rewrite (split_no_sep _ _ Hn) in Hlen. discriminate.
Qed.

(** C4. Without a source, a package matches its bare name, matches its
    [git_url], and matches no other path. *)
Theorem matches_path_without_source (g : string) (s m : option string) (P : t) :
  __init__ g s m = Ok P ->
  absent s ->
  matches_path P (name P) = Ok true
  /\ matches_path P g = Ok true
  /\ (forall path, path <> name P -> path <> g ->
        matches_path P path = Ok false).
Proof.
  intros HP Hs. apply init_inv in HP; subst P. simpl.
  assert (Hm : forall path,
             matches_path (mk g (last_segment g) s m) path =
             Ok (String.eqb path (last_segment g) || String.eqb path g)).
  { intros path. apply matches_path_no_source; simpl;
      [exact Hs|apply last_segment_no_slash]. }
  repeat split.
  - rewrite Hm, String.eqb_refl. reflexivity.
  - rewrite Hm, (String.eqb_refl g). now rewrite orb_true_r.
  - intros path H1 H2. rewrite Hm.
    apply String.eqb_neq in H1, H2. now rewrite H1, H2.
Qed.

Lemma matches_path_without_source_witness :
  let P := mk "https://github.com/org/repo" "repo" None None in
  matches_path P "repo" = Ok true
  /\ matches_path P "https://github.com/org/repo" = Ok true
  /\ matches_path P "org/repo" = Ok false.
Proof.
  destruct (matches_path_without_source "https://github.com/org/repo" None None
              (mk "https://github.com/org/repo" "repo" None None)
              eq_refl eq_refl) as [H1 [H2 H3]].
  split; [exact H1|split; [exact H2|]].
  apply H3; discriminate.
Defined.

(** ** Matching with a source *)

Lemma Forall_last_n {A : Type} (Q : A -> Prop) (k : nat) (l : list A) :
  Forall Q l -> Forall Q (last_n k l).
Proof.
  intros H. unfold last_n.
  rewrite <- (firstn_skipn (List.length l - k) l) in H.
  now apply Forall_app in H.
Qed.

(** The loop accepts the last [k] parts of the list it compares against. *)
Lemma compare_parts_last_n (k : nat) (parts : list string) :
  (k <= List.length parts)%nat ->
  compare_parts (Z.of_nat k) parts (rev (enumerate (last_n k parts))) = Ok true.
Proof.
  intros Hk. apply compare_parts_all, Forall_rev.
  apply enumerate_from_Forall. intros j x Hj. simpl.
  unfold last_n in Hj. rewrite nth_error_skipn in Hj.
  assert (Hlt : (List.length parts - k + j < List.length parts)%nat)
    by (apply nth_error_Some; congruence).
  apply getitem_from_end in Hj.
  replace (Z.of_nat j - Z.of_nat k)
    with (Z.of_nat (List.length parts - k + j) - len parts)
    by (unfold len; lia).
  exact Hj.
Qed.

(** C2 as stated fails: under a source that is present but empty the
    identity is [git_url], and its last two segments, joined, are neither
    the name nor [git_url]. *)
Lemma suffix_matches_counterexample :
  ~ (forall (g : string) (s m : option string) (P : t) (k : nat),
        __init__ g s m = Ok P ->
        s <> None ->
        (1 <= k <= List.length (split "/" (__str__ P)))%nat ->
        matches_path P (join "/" (last_n k (split "/" (__str__ P)))) = Ok true).
Proof.
  intros H.
  assert (E : matches_path
                (mk "https://github.com/org/repo" "repo" (Some EmptyString) None)
                "org/repo" = Ok true).
  { apply (H "https://github.com/org/repo"%string (Some EmptyString) None
             (mk "https://github.com/org/repo" "repo" (Some EmptyString) None)
             2%nat eq_refl).
    - discriminate.
    - simpl. lia. }
  discriminate E.
Qed.

Lemma last_n_one {A : Type} (l : list A) (d : A) :
  l <> [] -> last_n 1 l = [last l d].
Proof.
  intros H. destruct (exists_last H) as [l' [x ->]].
  unfold last_n. rewrite last_last, length_app. simpl List.length.
  replace (List.length l' + 1 - 1)%nat with (List.length l') by lia.
  now rewrite skipn_app, skipn_all, Nat.sub_diag.
Qed.

Lemma last_n_all {A : Type} (l : list A) : last_n (List.length l) l = l.
Proof. unfold last_n. now rewrite Nat.sub_diag. Qed.

(** Under an empty or absent source, of the joined last [k] segments of
    [git_url] only the last one alone and all of them together match. *)
Lemma suffix_without_source (g : string) (s m : option string) (k : nat) :
  truthy s = false ->
  (1 <= k <= List.length (split "/" g))%nat ->
  matches_path (mk g (last_segment g) s m) (join "/" (last_n k (split "/" g)))
  = Ok (Nat.eqb k 1 || Nat.eqb k (List.length (split "/" g))).
Proof.
  intros Hs Hk. set (parts := split "/" g) in *.
  rewrite matches_path_no_source by (exact Hs || apply last_segment_no_slash).
  cbn [name git_url]. f_equal.
  assert (Hsplit : split "/" (join "/" (last_n k parts)) = last_n k parts).
  { apply split_join.
    - intros E. apply (f_equal (@List.length string)) in E.
      rewrite length_last_n in E by lia. simpl in E. lia.
    - apply Forall_last_n, split_segments. }
  assert (Hlen : List.length (split "/" (join "/" (last_n k parts))) = k)
    by (rewrite Hsplit; apply length_last_n; lia).
  f_equal.
  - destruct (Nat.eqb_spec k 1) as [->|Hk1].
    + rewrite (last_n_one parts EmptyString (split_not_nil "/" g)).
      apply String.eqb_refl.
    + apply String.eqb_neq. intros E. rewrite E in Hlen.
      rewrite (split_no_sep _ _ (last_segment_no_slash g)) in Hlen.
      simpl in Hlen. congruence.
  - destruct (Nat.eqb_spec k (List.length parts)) as [->|Hkn].
    + rewrite last_n_all. unfold parts. rewrite join_split.
      apply String.eqb_refl.
    + apply String.eqb_neq. intros E. rewrite E in Hlen. fold parts in Hlen.
      congruence.
Qed.

(** C2, amended. For every [k] from one to the number of identity segments,
    a package with a non-empty source matches the slash-joined last [k]
    segments of its identity; a package whose source is the empty string
    matches them for [k = 1] and for [k] the number of segments (the name
    and the whole identity), and for no other [k]. *)
Theorem suffix_matches (g : string) (s m : option string) (P : t) (k : nat) :
  __init__ g s m = Ok P ->
  (1 <= k <= List.length (split "/" (__str__ P)))%nat ->
  (forall src, s = Some src -> src <> EmptyString ->
     matches_path P (join "/" (last_n k (split "/" (__str__ P)))) = Ok true)
  /\ (s = Some EmptyString ->
      matches_path P (join "/" (last_n k (split "/" (__str__ P))))
      = Ok (Nat.eqb k 1 || Nat.eqb k (List.length (split "/" (__str__ P))))).
Proof.
  intros HP Hk. apply init_inv in HP; subst P.
  set (P := mk g (last_segment g) s m) in *. split.
  - intros src Hsrc Hne.
    assert (Hs : truthy s = true)
      by (subst s; simpl; now apply negb_true_iff, String.eqb_neq).
    set (parts := split "/" (__str__ P)) in *.
    assert (Hlen : List.length (last_n k parts) = k)
      by (apply length_last_n; lia).
    unfold matches_path. change (truthy (source P)) with (truthy s).
    rewrite Hs. fold parts.
    rewrite split_join.
    + unfold len. rewrite Hlen. apply compare_parts_last_n. lia.
    + intros E. rewrite E in Hlen. simpl in Hlen. lia.
    + apply Forall_last_n, split_segments.
  - intros Hs. subst s. change (__str__ P) with g in *.
    now apply suffix_without_source.
Qed.

Lemma suffix_matches_witness :
  matches_path (mk "https://github.com/org/repo" "repo" (Some "registry"%string)
                  (Some "sub"%string)) "sub/repo" = Ok true
  /\ matches_path (mk "https://github.com/org/repo" "repo" (Some EmptyString) None)
       "org/repo" = Ok false.
Proof.
  split.
  - apply (proj1 (suffix_matches "https://github.com/org/repo"
                    (Some "registry"%string) (Some "sub"%string)
                    (mk "https://github.com/org/repo" "repo"
                       (Some "registry"%string) (Some "sub"%string)) 2 eq_refl
                    ltac:(simpl; lia)) "registry"%string eq_refl).
    discriminate.
  - exact (proj2 (suffix_matches "https://github.com/org/repo"
                    (Some EmptyString) None
                    (mk "https://github.com/org/repo" "repo" (Some EmptyString) None)
                    2 eq_refl ltac:(simpl; lia)) eq_refl).
Defined.

(** C6. Whatever the source, a path whose last segment is not the
    package's name does not match. *)
Theorem last_segment_differs (g : string) (s m : option string) (P : t)
    (path : string) :
  __init__ g s m = Ok P ->
  last_segment path <> name P ->
  matches_path P path = Ok false.
Proof.
  intros HP Hne. apply init_inv in HP; subst P.
  set (P := mk g (last_segment g) s m) in *.
  pose proof (last_segment_no_slash g) as Hn.
  destruct (truthy s) eqn:Hs.
  - unfold matches_path. change (truthy (source P)) with (truthy s). rewrite Hs.
    pose proof (split_not_nil "/" path) as Hnil.
    unfold last_segment in Hne.
    rewrite (app_removelast_last EmptyString Hnil) in *.
    rewrite last_last in Hne.
    set (front := removelast (split "/" path)) in *.
    set (lp := last (split "/" path) EmptyString) in *.
    unfold enumerate. rewrite enumerate_from_app, len_app.
    change (enumerate_from (0 + len front) [lp]) with [(0 + len front, lp)].
    rewrite rev_unit.
    apply compare_parts_mismatch with (q := name P); [|exact Hne].
    replace (0 + len front - (len front + len [lp])) with (-1)
      by (unfold len; simpl; lia).
    rewrite (getitem_minus1 _ EmptyString (split_not_nil "/" (__str__ P))).
    f_equal. apply str_last_segment; [exact Hs|exact Hn].
  - rewrite (matches_path_no_source P path Hs Hn). f_equal.
    cbn [name git_url] in *. apply orb_false_iff. split; apply String.eqb_neq.
    + intros ->. apply Hne. now apply last_segment_plain.
    + intros ->. now apply Hne.
Qed.

Lemma last_segment_differs_witness :
  matches_path (mk "https://github.com/org/repo" "repo" (Some "registry"%string) None)
    "registry/other" = Ok false
  /\ matches_path (mk "https://github.com/org/repo" "repo" (Some EmptyString) None)
       "org/other" = Ok false.
Proof.
  split.
  - apply (last_segment_differs "https://github.com/org/repo"
             (Some "registry"%string) None
             (mk "https://github.com/org/repo" "repo" (Some "registry"%string) None)
             "registry/other" eq_refl).
    discriminate.
  - apply (last_segment_differs "https://github.com/org/repo"
             (Some EmptyString) None
             (mk "https://github.com/org/repo" "repo" (Some EmptyString) None)
             "org/other" eq_refl).
    discriminate.
Defined.

(** A path with more segments than the identity is never accepted: the
    loop ends on a mismatch or on the index below the front of
    [pkg_path_parts]. *)
Lemma compare_parts_longer (parts path_parts : list string) :
  len parts < len path_parts ->
  compare_parts (len path_parts) parts (rev (enumerate path_parts)) <> Ok true.
Proof.
  intros Hlen. destruct path_parts as [|x rest]; [unfold len in *; simpl in *; lia|].
  unfold enumerate. simpl enumerate_from. simpl rev.
  rewrite compare_parts_app.
  destruct (compare_parts _ parts (rev _)) as [[|]|e];
    cbn [bind compare_parts]; try discriminate.
  rewrite getitem_below by lia. discriminate.
Qed.

(** One more leading segment than the identity has: every part of the
    identity agrees, and the loop then reads below the front. *)
Lemma matches_path_one_longer (P : t) (seg : string) :
  truthy (source P) = true ->
  has_char "/" seg = false ->
  matches_path P (seg ++ String "/" (__str__ P)) = Raise IndexError.
Proof.
  intros Hs Hseg. unfold matches_path. rewrite Hs.
  rewrite split_app_sep, (split_no_sep _ _ Hseg).
  set (parts := split "/" (__str__ P)).
  unfold enumerate. simpl enumerate_from. simpl rev.
  rewrite compare_parts_app, len_app.
  rewrite compare_parts_all.
  - cbn [bind compare_parts]. rewrite getitem_below; [reflexivity|].
    unfold len. simpl List.length. lia.
  - apply Forall_rev, enumerate_from_Forall. intros j x Hj. cbn [fst snd].
    apply getitem_from_end in Hj.
    replace (1 + Z.of_nat j - (len [seg] + len parts))
      with (Z.of_nat j - len parts) by (unfold len; simpl List.length; lia).
    exact Hj.
Qed.

(** C1 does not hold of the code. The package built from
    [https://github.com/org/repo] with source [registry] has the two
    identity segments [registry] and [repo]; on the three-segment path
    [a/registry/repo] both of them agree, and [matches_path] then indexes
    [pkg_path_parts[-3]] and raises [IndexError] instead of returning
    [False]. *)
Theorem longer_path_raises :
  let P := mk "https://github.com/org/repo" "repo" (Some "registry"%string) None in
  __init__ "https://github.com/org/repo" (Some "registry"%string) None = Ok P
  /\ present (source P)
  /\ (List.length (split "/" (__str__ P))
      < List.length (split "/" "a/registry/repo"))%nat
  /\ matches_path P "a/registry/repo" = Raise IndexError.
Proof.
  simpl. split; [reflexivity|]. split; [reflexivity|]. split; [lia|].
  exact (matches_path_one_longer
           (mk "https://github.com/org/repo" "repo" (Some "registry"%string) None)
           "a" eq_refl eq_refl).
Qed.

(** ** Ordering *)

Lemma lex_lt_cons (x : ascii) (a b : string) :
  lex_lt a b -> lex_lt (String x a) (String x b).
Proof.
  intros H. destruct H as [p c r|p y z r1 r2 Hyz].
  - exact (lex_lt_prefix (String x p) c r).
  - exact (lex_lt_differ (String x p) y z r1 r2 Hyz).
Qed.

Lemma lex_lt_inv (a b : string) :
  lex_lt a b ->
  match a, b with
  | EmptyString, EmptyString => False
  | EmptyString, String _ _ => True
  | String _ _, EmptyString => False
  | String x a', String y b' =>
      (N_of_ascii x < N_of_ascii y)%N \/ (x = y /\ lex_lt a' b')
  end.
Proof.
  intros H. destruct H as [p c r|p x y r1 r2 Hxy].
  - destruct p as [|z p]; simpl; [exact I|].
    right. split; [reflexivity|constructor].
  - destruct p as [|z p]; simpl; [now left|].
    right. split; [reflexivity|now constructor].
Qed.

Lemma str_ltb_lex_lt (a b : string) : str_ltb a b = true <-> lex_lt a b.
Proof.
  revert b. induction a as [|x a IH]; intros [|y b]; simpl.
  - split; [discriminate|]. intros H. now apply lex_lt_inv in H.
  - split; [|reflexivity]. intros _. exact (lex_lt_prefix EmptyString y b).
  - split; [discriminate|]. intros H. now apply lex_lt_inv in H.
  - unfold chr_ltb. destruct (N.ltb_spec (N_of_ascii x) (N_of_ascii y)) as [Hlt|Hge].
    + split; [|reflexivity]. intros _.
      exact (lex_lt_differ EmptyString x y a b Hlt).
    + destruct (Ascii.eqb_spec x y) as [->|Hne].
      * rewrite IH. split; [apply lex_lt_cons|].
        intros H. apply lex_lt_inv in H as [H|[_ H]]; [lia|exact H].
      * split; [discriminate|].
        intros H. apply lex_lt_inv in H as [H|[H _]]; [lia|contradiction].
Qed.

(** C8. [a < b] on packages holds exactly when the identity of [a] is
    lexicographically, by character code, less than the identity of [b]. *)
Theorem lt_is_lexicographic (a b : t) :
  __lt__ a b = true <-> lex_lt (__str__ a) (__str__ b).
Proof. unfold __lt__. apply str_ltb_lex_lt. Qed.

(** ** The module directory without a source *)

(** C9. Two packages that differ only in their module directory, neither
    with a source, have the same identity and give the same answer on every
    path. *)
Theorem module_dir_ignored_without_source (g : string) (s m1 m2 : option string)
    (P1 P2 : t) :
  __init__ g s m1 = Ok P1 ->
  __init__ g s m2 = Ok P2 ->
  absent s ->
  __str__ P1 = __str__ P2
  /\ (forall path, matches_path P1 path = matches_path P2 path).
Proof.
  intros H1 H2 Hs. apply init_inv in H1, H2; subst P1 P2.
  unfold matches_path, __str__; simpl. rewrite Hs. split; reflexivity.
Qed.

Lemma module_dir_ignored_without_source_witness :
  let P1 := mk "https://github.com/org/repo" "repo" None (Some "sub"%string) in
  let P2 := mk "https://github.com/org/repo" "repo" None None in
  __str__ P1 = __str__ P2
  /\ (forall path, matches_path P1 path = matches_path P2 path).
Proof.
  exact (module_dir_ignored_without_source "https://github.com/org/repo" None
           (Some "sub"%string) None
           (mk "https://github.com/org/repo" "repo" None (Some "sub"%string))
           (mk "https://github.com/org/repo" "repo" None None)
           eq_refl eq_refl eq_refl).
Defined.

(** ** Empty strings and absent values *)

Lemma truthy_drop_empty (o : option string) : truthy (drop_empty o) = truthy o.
Proof. destruct o as [[|c r]|]; reflexivity. Qed.

Lemma render_drop_empty (o : option string) :
  truthy o = true -> render (drop_empty o) = render o.
Proof. destruct o as [[|c r]|]; simpl; (reflexivity || discriminate). Qed.

Lemma str_drop_empty (g n : string) (s m : option string) :
  __str__ (mk g n (drop_empty s) (drop_empty m)) = __str__ (mk g n s m).
Proof.
  unfold __str__; simpl. rewrite !truthy_drop_empty.
  destruct (truthy s) eqn:Hs; [|reflexivity].
  rewrite (render_drop_empty s Hs).
  destruct (truthy m) eqn:Hm; [|reflexivity].
  now rewrite (render_drop_empty m Hm).
Qed.

(** C10. An empty source leaves [git_url] as the identity and the paths
    matched are the name and [git_url]; an empty module directory under a
    non-empty source leaves [source/name] as the identity; and a package
    built with empty strings answers [str], [repr], [<] and [matches_path]
    as the package built with those fields left out. *)
Theorem empty_string_is_absent (g : string) (s m : option string) (P : t) :
  __init__ g s m = Ok P ->
  (s = Some EmptyString ->
     __str__ P = g
     /\ forall path,
          matches_path P path =
          Ok (String.eqb path (name P) || String.eqb path g))
  /\ (forall src, s = Some src -> src <> EmptyString -> m = Some EmptyString ->
        __str__ P = (src ++ "/" ++ name P)%string)
  /\ (forall P0, __init__ g (drop_empty s) (drop_empty m) = Ok P0 ->
        __str__ P = __str__ P0
        /\ __repr__ P = __repr__ P0
        /\ (forall path, matches_path P path = matches_path P0 path)
        /\ (forall Q, __lt__ P Q = __lt__ P0 Q /\ __lt__ Q P = __lt__ Q P0)).
Proof.
  intros HP. apply init_inv in HP; subst P. split; [|split].
  - intros ->. split; [reflexivity|]. intros path.
    apply matches_path_no_source; [reflexivity|apply last_segment_no_slash].
  - intros src -> Hsrc ->. unfold __str__; simpl.
    apply String.eqb_neq in Hsrc. now rewrite Hsrc.
  - intros P0 HP0. apply init_inv in HP0; subst P0.
    pose proof (str_drop_empty g (last_segment g) s m) as Hstr.
    split; [now symmetry|]. split; [reflexivity|]. split.
    + intros path. unfold matches_path. rewrite Hstr. simpl.
      now rewrite truthy_drop_empty.
    + intros Q. unfold __lt__. now rewrite Hstr.
Qed.

Lemma empty_string_is_absent_witness :
  let P := mk "https://github.com/org/repo" "repo" (Some EmptyString)
             (Some "sub"%string) in
  __str__ P = "https://github.com/org/repo"%string
  /\ matches_path P "repo" = Ok true
  /\ __str__ (mk "https://github.com/org/repo" "repo" (Some "registry"%string)
                (Some EmptyString))
     = "registry/repo"%string.
Proof.
  pose proof (proj1 (empty_string_is_absent "https://github.com/org/repo"
                       (Some EmptyString) (Some "sub"%string)
                       (mk "https://github.com/org/repo" "repo" (Some EmptyString)
                          (Some "sub"%string)) eq_refl) eq_refl) as [H1 H2].
  split; [exact H1|]. split; [exact (H2 "repo"%string)|].
  exact (proj1 (proj2 (empty_string_is_absent "https://github.com/org/repo"
                         (Some "registry"%string) (Some EmptyString)
                         (mk "https://github.com/org/repo" "repo"
                            (Some "registry"%string) (Some EmptyString)) eq_refl))
           "registry"%string eq_refl ltac:(discriminate) eq_refl).
Defined.

(** ** The scenarios of the specification, run on the model *)

Example scenario_plain :
  let P := mk "https://github.com/org/repo" "repo" None None in
  __init__ "https://github.com/org/repo" None None = Ok P
  /\ __str__ P = "https://github.com/org/repo"%string
  /\ matches_path P "repo" = Ok true
  /\ matches_path P "https://github.com/org/repo" = Ok true
  /\ matches_path P "org/repo" = Ok false.
Proof. repeat split. Qed.

Example scenario_source :
  let P := mk "https://github.com/org/repo" "repo" (Some "registry"%string) None in
  __init__ "https://github.com/org/repo" (Some "registry"%string) None = Ok P
  /\ __str__ P = "registry/repo"%string
  /\ matches_path P "repo" = Ok true
  /\ matches_path P "registry/repo" = Ok true
  /\ matches_path P "other/repo" = Ok false.
Proof. repeat split. Qed.

Example scenario_module_dir :
  let P := mk "https://github.com/org/repo" "repo" (Some "registry"%string)
             (Some "sub"%string) in
  __init__ "https://github.com/org/repo" (Some "registry"%string)
    (Some "sub"%string) = Ok P
  /\ __str__ P = "registry/sub/repo"%string
  /\ matches_path P "sub/repo" = Ok true
  /\ matches_path P "registry/sub/repo" = Ok true
  /\ matches_path P "repo" = Ok true.
Proof. repeat split. Qed.

Example scenario_sorting :
  __lt__ (mk "https://github.com/org/repo" "repo" (Some "a"%string) None)
         (mk "https://github.com/org/repo" "repo" (Some "b"%string) None) = true
  /\ __lt__ (mk "https://github.com/org/repo" "repo" (Some "b"%string) None)
            (mk "https://github.com/org/repo" "repo" (Some "a"%string) None) = false.
Proof. split; reflexivity. Qed.

(** A mismatch inside the overlap is found before the index runs out. *)
Example longer_path_mismatch :
  matches_path (mk "https://github.com/org/repo" "repo" (Some "registry"%string) None)
    "a/other/repo" = Ok false.
Proof. reflexivity. Qed.

(** ** The loop, one step at a time from the end *)

Lemma getitem_nil {A : Type} (i : Z) : getitem (@nil A) i = Raise IndexError.
Proof.
  unfold getitem, len. simpl.
  destruct (i <? 0) eqn:Hi; simpl.
  - rewrite Hi. reflexivity.
  - rewrite Hi. simpl.
    replace (0 <=? i) with true by (symmetry; apply Z.leb_le, Z.ltb_ge, Hi).
    reflexivity.
Qed.

(** Seen from the end, a list and its extension by one element agree. *)
Lemma getitem_shift {A : Type} (l : list A) (q : A) (r : Z) :
  r < 0 -> getitem (l ++ [q]) (r - 1) = getitem l r.
Proof.
  intros Hr. unfold getitem. rewrite len_app.
  assert (Hl : 0 <= len l) by (unfold len; lia).
  replace (len [q]) with 1 by reflexivity.
  replace (r - 1 <? 0) with true by (symmetry; apply Z.ltb_lt; lia).
  replace (r <? 0) with true by (symmetry; apply Z.ltb_lt; lia).
  replace (len l + 1 + (r - 1)) with (len l + r) by lia.
  destruct (len l + r <? 0) eqn:Hneg; [reflexivity|].
  apply Z.ltb_ge in Hneg.
  replace (len l + 1 <=? len l + r) with false by (symmetry; apply Z.leb_gt; lia).
  replace (len l <=? len l + r) with false by (symmetry; apply Z.leb_gt; lia).
  simpl. rewrite nth_error_app1; [reflexivity|].
  unfold len in *. lia.
Qed.

Lemma compare_parts_shift (n : Z) (parts : list string) (q : string)
    (items : list (Z * string)) :
  Forall (fun ip => fst ip < n) items ->
  compare_parts (n + 1) (parts ++ [q]) items = compare_parts n parts items.
Proof.
  induction 1 as [|[i part] items Hi _ IH]; [reflexivity|].
  cbn [compare_parts fst] in *.
  replace (i - (n + 1)) with (i - n - 1) by lia.
  rewrite getitem_shift by lia.
  destruct (getitem parts (i - n)) as [x|e]; cbn [bind]; [|reflexivity].
  destruct (negb (String.eqb part x)); [reflexivity|exact IH].
Qed.

Lemma enumerate_below {A : Type} (l : list A) :
  Forall (fun ip => fst ip < len l) (rev (enumerate l)).
Proof.
  apply Forall_rev, enumerate_from_Forall. intros j x Hj. cbn [fst].
  assert ((j < List.length l)%nat) by (apply nth_error_Some; congruence).
  unfold len. lia.
Qed.

Lemma rev_enumerate_snoc {A : Type} (l : list A) (x : A) :
  rev (enumerate (l ++ [x])) = (len l, x) :: rev (enumerate l).
Proof.
  unfold enumerate. rewrite enumerate_from_app.
  change (enumerate_from (0 + len l) [x]) with [(0 + len l, x)].
  now rewrite rev_unit, Z.add_0_l.
Qed.

Lemma len_snoc {A : Type} (l : list A) (x : A) : len (l ++ [x]) = len l + 1.
Proof. rewrite len_app. reflexivity. Qed.

(** With nothing to compare against, the first index is out of range. *)
Lemma compare_parts_snoc_nil (pp : list string) (x : string) :
  compare_parts (len (pp ++ [x])) [] (rev (enumerate (pp ++ [x])))
  = Raise IndexError.
Proof.
  rewrite rev_enumerate_snoc. cbn [compare_parts].
  now rewrite getitem_nil.
Qed.

(** Otherwise the two last elements are compared, and the loop goes on with
    what is in front of them. *)
Lemma compare_parts_snoc (pp parts : list string) (x q : string) :
  compare_parts (len (pp ++ [x])) (parts ++ [q]) (rev (enumerate (pp ++ [x])))
  = if String.eqb x q
    then compare_parts (len pp) parts (rev (enumerate pp))
    else Ok false.
Proof.
  rewrite rev_enumerate_snoc, len_snoc. cbn [compare_parts].
  replace (len pp - (len pp + 1)) with (-1) by lia.
  rewrite getitem_last. cbn [bind].
  destruct (String.eqb x q); [|reflexivity]. simpl negb. cbn iota.
  apply compare_parts_shift, enumerate_below.
Qed.

(** The loop answers [True] exactly on a suffix of the parts compared
    against. *)
Lemma compare_parts_true_iff (pp parts : list string) :
  compare_parts (len pp) parts (rev (enumerate pp)) = Ok true
  <-> exists front, parts = front ++ pp.
Proof.
  revert parts. induction pp as [|x pp IH] using rev_ind; intros parts.
  - split; [|reflexivity]. intros _. exists parts. now rewrite app_nil_r.
  - destruct parts as [|q parts _] using rev_ind.
    + rewrite compare_parts_snoc_nil. split; [discriminate|].
      intros [front H]. symmetry in H. apply app_eq_nil in H as [_ H].
      now destruct pp.
    + rewrite compare_parts_snoc.
      destruct (String.eqb_spec x q) as [->|Hne].
      * rewrite IH. split; intros [front H]; exists front.
        -- now rewrite H, app_assoc.
        -- rewrite app_assoc in H. now apply app_inj_tail in H.
      * split; [discriminate|]. intros [front H].
        rewrite app_assoc in H. apply app_inj_tail in H as [_ H]. congruence.
Qed.

(** The loop raises exactly when the parts compared against are a proper
    suffix of the path's parts. *)
Lemma compare_parts_raise_iff (pp parts : list string) :
  compare_parts (len pp) parts (rev (enumerate pp)) = Raise IndexError
  <-> exists front, front <> [] /\ pp = front ++ parts.
Proof.
  revert parts. induction pp as [|x pp IH] using rev_ind; intros parts.
  - split; [discriminate|]. intros [front [Hne H]].
    symmetry in H. apply app_eq_nil in H as [H _]. contradiction.
  - destruct parts as [|q parts _] using rev_ind.
    + rewrite compare_parts_snoc_nil. split; [|reflexivity]. intros _.
      exists (pp ++ [x]). split; [now destruct pp|now rewrite app_nil_r].
    + rewrite compare_parts_snoc.
      destruct (String.eqb_spec x q) as [->|Hne].
      * rewrite IH. split; intros [front [Hf H]]; exists front; (split; [exact Hf|]).
        -- now rewrite H, app_assoc.
        -- rewrite app_assoc in H. now apply app_inj_tail in H.
      * split; [discriminate|]. intros [front [_ H]].
        rewrite app_assoc in H. apply app_inj_tail in H as [_ H]. congruence.
Qed.

(** ** Paths and identities as strings *)

Lemma str_app_assoc (a b c : string) :
  ((a ++ b) ++ c)%string = (a ++ (b ++ c))%string.
Proof. induction a as [|x a IH]; simpl; [reflexivity|now rewrite IH]. Qed.

Lemma join_app (sep : ascii) (a b : list string) :
  a <> [] -> b <> [] ->
  join sep (a ++ b) = (join sep a ++ String sep (join sep b))%string.
Proof.
  intros Ha Hb. induction a as [|x a IH]; [contradiction|].
  destruct a as [|y a].
  - destruct b as [|z b]; [contradiction|reflexivity].
  - change (join sep ((x :: y :: a) ++ b))
      with (x ++ String sep (join sep ((y :: a) ++ b)))%string.
    rewrite IH by discriminate.
    change (join sep (x :: y :: a))
      with (x ++ String sep (join sep (y :: a)))%string.
    now rewrite str_app_assoc.
Qed.

Lemma split_inj (sep : ascii) (a b : string) :
  split sep a = split sep b -> a = b.
Proof.
  intros H. rewrite <- (join_split sep a), <- (join_split sep b).
  now rewrite H.
Qed.

(** The parts of [whole] end with the parts of [tail] exactly when [whole]
    is [tail], or ends with a slash followed by [tail]. *)
Lemma split_suffix_iff (whole tail : string) :
  (exists front, split "/" whole = front ++ split "/" tail)
  <-> whole = tail \/ exists pre, whole = (pre ++ String "/" tail)%string.
Proof.
  split.
  - intros [front H]. destruct front as [|x front].
    + left. now apply (split_inj "/").
    + right. exists (join "/" (x :: front)).
      rewrite <- (join_split "/" whole), H.
      rewrite join_app by (discriminate || apply split_not_nil).
      now rewrite join_split.
  - intros [->|[pre ->]].
    + now exists [].
    + exists (split "/" pre). apply split_app_sep.
Qed.

Lemma split_proper_suffix_iff (whole tail : string) :
  (exists front, front <> [] /\ split "/" whole = front ++ split "/" tail)
  <-> exists pre, whole = (pre ++ String "/" tail)%string.
Proof.
  split.
  - intros [front [Hne H]]. exists (join "/" front).
    rewrite <- (join_split "/" whole), H.
    rewrite join_app by (assumption || apply split_not_nil).
    now rewrite join_split.
  - intros [pre ->]. exists (split "/" pre).
    split; [apply split_not_nil|apply split_app_sep].
Qed.

(** Without a source nothing is indexed out of range. *)
Lemma matches_path_no_source_ok (P : t) (path : string) :
  truthy (source P) = false -> exists b, matches_path P path = Ok b.
Proof.
  intros Hs. unfold matches_path. rewrite Hs.
  rewrite (getitem_minus1 _ EmptyString (split_not_nil "/" path)).
  destruct (len (split "/" path) =? 1); cbn [bind].
  - destruct (String.eqb _ (name P)); eauto.
  - eauto.
Qed.

(** A path without a slash is compared with the name alone. *)
Lemma matches_path_bare (g : string) (s m : option string) (path : string) :
  has_char "/" path = false ->
  matches_path (mk g (last_segment g) s m) path
  = Ok (String.eqb path (last_segment g)).
Proof.
  intros Hp. set (P := mk g (last_segment g) s m).
  pose proof (last_segment_no_slash g) as Hn.
  destruct (truthy s) eqn:Hs.
  - unfold matches_path. change (truthy (source P)) with (truthy s). rewrite Hs.
    rewrite (split_no_sep _ _ Hp).
    pose proof (split_not_nil "/" (__str__ P)) as Hne.
    rewrite (app_removelast_last EmptyString Hne).
    change (last (split "/" (__str__ P)) EmptyString) with (last_segment (__str__ P)).
    rewrite (str_last_segment P Hs Hn).
    change [path] with ([] ++ [path]).
    rewrite compare_parts_snoc. change (name P) with (last_segment g).
    now destruct (String.eqb path (last_segment g)).
  - rewrite (matches_path_no_source P path Hs Hn). f_equal.
    change (name P) with (last_segment g). change (git_url P) with g.
    destruct (String.eqb_spec path g) as [->|Hne]; [|apply orb_false_r].
    now rewrite (last_segment_plain g Hp), String.eqb_refl.
Qed.

(** ** String comparison is a strict total order *)

Lemma N_of_ascii_inj (x y : ascii) : N_of_ascii x = N_of_ascii y -> x = y.
Proof.
  intros H. rewrite <- (ascii_N_embedding x), <- (ascii_N_embedding y).
  now rewrite H.
Qed.

Lemma str_ltb_cons (x y : ascii) (a b : string) :
  str_ltb (String x a) (String y b) = true
  <-> (N_of_ascii x < N_of_ascii y)%N \/ (x = y /\ str_ltb a b = true).
Proof.
  simpl. unfold chr_ltb.
  destruct (N.ltb_spec (N_of_ascii x) (N_of_ascii y)) as [Hlt|Hge].
  - split; [now left|reflexivity].
  - destruct (Ascii.eqb_spec x y) as [->|Hne].
    + split; [now right|]. intros [H|[_ H]]; [lia|exact H].
    + split; [discriminate|]. intros [H|[H _]]; [lia|contradiction].
Qed.

Lemma str_ltb_irrefl (a : string) : str_ltb a a = false.
Proof.
  induction a as [|x a IH]; [reflexivity|].
  apply not_true_is_false. intros H.
  apply str_ltb_cons in H as [H|[_ H]]; [lia|congruence].
Qed.

Lemma str_ltb_trans (a b c : string) :
  str_ltb a b = true -> str_ltb b c = true -> str_ltb a c = true.
Proof.
  revert b c. induction a as [|x a IH]; intros [|y b] [|z c]; try discriminate;
    try reflexivity.
  intros Hab Hbc. apply str_ltb_cons in Hab, Hbc. apply str_ltb_cons.
  destruct Hab as [Hxy|[-> Hab]], Hbc as [Hyz|[-> Hbc]].
  - left. lia.
  - now left.
  - now left.
  - right. split; [reflexivity|]. exact (IH b c Hab Hbc).
Qed.

Lemma str_ltb_connected (a b : string) :
  str_ltb a b = false -> str_ltb b a = false -> a = b.
Proof.
  revert b. induction a as [|x a IH]; intros [|y b]; try discriminate;
    [reflexivity|].
  intros Hab Hba.
  assert (Hxy : x = y).
  { apply N_of_ascii_inj.
    destruct (N.lt_trichotomy (N_of_ascii x) (N_of_ascii y)) as [H|[H|H]];
      [|exact H|].
    - assert (E : str_ltb (String x a) (String y b) = true)
        by (apply str_ltb_cons; now left).
      congruence.
    - assert (E : str_ltb (String y b) (String x a) = true)
        by (apply str_ltb_cons; now left).
      congruence. }
  subst y. f_equal. apply IH; apply not_true_is_false; intros H.
  - assert (E : str_ltb (String x a) (String x b) = true)
      by (apply str_ltb_cons; now right).
    congruence.
  - assert (E : str_ltb (String x b) (String x a) = true)
      by (apply str_ltb_cons; now right).
    congruence.
Qed.

(** ** Further properties of matching with a source *)

(** X1. With a source, a path is accepted exactly when the identity is the
    path itself or ends with a slash followed by the path. *)
Theorem matches_path_true_iff (P : t) (path : string) :
  present (source P) ->
  (matches_path P path = Ok true
   <-> __str__ P = path
       \/ exists pre, __str__ P = (pre ++ String "/" path)%string).
Proof.
  intros Hs. unfold matches_path. rewrite Hs.
  rewrite compare_parts_true_iff. apply split_suffix_iff.
Qed.

Lemma matches_path_true_iff_witness :
  matches_path (mk "https://github.com/org/repo" "repo" (Some "registry"%string)
                  (Some "sub"%string)) "sub/repo" = Ok true.
Proof.
  apply (matches_path_true_iff
           (mk "https://github.com/org/repo" "repo" (Some "registry"%string)
              (Some "sub"%string)) "sub/repo" eq_refl).
  right. exists "registry"%string. reflexivity.
Defined.

(** X2. [matches_path] raises [IndexError] exactly when the package has a
    source and the path ends with a slash followed by the whole identity. *)
Theorem matches_path_raises_iff (P : t) (path : string) :
  matches_path P path = Raise IndexError
  <-> present (source P)
      /\ exists pre, path = (pre ++ String "/" (__str__ P))%string.
Proof.
  unfold present. destruct (truthy (source P)) eqn:Hs.
  - unfold matches_path. rewrite Hs.
    rewrite compare_parts_raise_iff, split_proper_suffix_iff. tauto.
  - destruct (matches_path_no_source_ok P path Hs) as [b Hb]. rewrite Hb.
    split; [discriminate|]. intros [H _]. discriminate.
Qed.

(** X3. A path with no more segments than the identity is answered, never
    faulted. *)
Theorem matches_path_in_range (P : t) (path : string) :
  (List.length (split "/" path) <= List.length (split "/" (__str__ P)))%nat ->
  exists b, matches_path P path = Ok b.
Proof.
  intros Hlen. destruct (truthy (source P)) eqn:Hs.
  - destruct (matches_path P path) as [b|[]] eqn:E; [eauto|exfalso].
    unfold matches_path in E. rewrite Hs in E.
    apply compare_parts_raise_iff in E as [front [Hne E]].
    rewrite E, length_app in Hlen. destruct front; [contradiction|].
    simpl in Hlen. lia.
  - now apply matches_path_no_source_ok.
Qed.

Lemma matches_path_in_range_witness :
  exists b,
    matches_path (mk "https://github.com/org/repo" "repo" (Some "registry"%string)
                    None) "other/repo" = Ok b.
Proof.
  apply (matches_path_in_range
           (mk "https://github.com/org/repo" "repo" (Some "registry"%string) None)
           "other/repo").
  simpl. lia.
Defined.



(** ** Further properties of constructed packages *)

(** X5. [Package(git_url, source, module_dir)] never raises, whatever the
    strings: it keeps its arguments, [repr] gives [git_url] back, and the
    name holds no slash. *)
Theorem constructor_never_raises (g : string) (s m : option string) :
  exists P,
    __init__ g s m = Ok P
    /\ __repr__ P = g
    /\ source P = s
    /\ module_dir P = m
    /\ has_char "/" (name P) = false.
Proof.
  exists (mk g (last_segment g) s m). split; [apply init_eq|].
  repeat split. apply last_segment_no_slash.
Qed.

(** X6. A constructed package matches its own name and its own identity,
    with or without a source. *)
Theorem matches_own_name_and_identity (g : string) (s m : option string) (P : t) :
  __init__ g s m = Ok P ->
  matches_path P (name P) = Ok true
  /\ matches_path P (__str__ P) = Ok true.
Proof.
  intros HP. apply init_inv in HP; subst P.
  set (P := mk g (last_segment g) s m). split.
  - unfold P at 1. rewrite matches_path_bare by apply last_segment_no_slash.
    change (name P) with (last_segment g). now rewrite String.eqb_refl.
  - destruct (truthy s) eqn:Hs.
    + unfold matches_path. change (truthy (source P)) with (truthy s).
      rewrite Hs. apply compare_parts_true_iff. now exists [].
    + rewrite matches_path_no_source;
        [|exact Hs|apply last_segment_no_slash].
      unfold __str__. change (truthy (source P)) with (truthy s). rewrite Hs.
      now rewrite String.eqb_refl, orb_true_r.
Qed.

Lemma matches_own_name_and_identity_witness :
  let P := mk "https://github.com/org/repo" "repo" (Some "registry"%string)
             (Some "sub"%string) in
  matches_path P "repo" = Ok true
  /\ matches_path P "registry/sub/repo" = Ok true.
Proof.
  exact (matches_own_name_and_identity "https://github.com/org/repo"
           (Some "registry"%string) (Some "sub"%string)
           (mk "https://github.com/org/repo" "repo" (Some "registry"%string)
              (Some "sub"%string)) eq_refl).
Defined.

(** X7. A path without a slash is accepted exactly when it is the
    package's name, with or without a source. *)
Theorem bare_path_matches_name (g : string) (s m : option string) (P : t)
    (path : string) :
  __init__ g s m = Ok P ->
  has_char "/" path = false ->
  matches_path P path = Ok (String.eqb path (name P)).
Proof.
  intros HP Hp. apply init_inv in HP; subst P.
  now apply matches_path_bare.
Qed.

Lemma bare_path_matches_name_witness :
  matches_path (mk "https://github.com/org/repo" "repo" (Some "registry"%string) None)
    "registry" = Ok false.
Proof.
  exact (bare_path_matches_name "https://github.com/org/repo"
           (Some "registry"%string) None
           (mk "https://github.com/org/repo" "repo" (Some "registry"%string) None)
           "registry" eq_refl eq_refl).
Defined.

(** X8. The empty path is answered without a fault, and is accepted
    exactly by the packages whose [git_url] is empty or ends with a
    slash. *)
Theorem empty_path_matches (g : string) (s m : option string) (P : t) :
  __init__ g s m = Ok P ->
  exists b,
    matches_path P EmptyString = Ok b
    /\ (b = true <-> g = EmptyString \/ ends_with "/" g = true).
Proof.
  intros HP. apply init_inv in HP; subst P.
  exists (String.eqb EmptyString (last_segment g)).
  split; [now apply matches_path_bare|].
  rewrite String.eqb_eq, <- last_segment_empty.
  split; intros H; now symmetry.
Qed.

Lemma empty_path_matches_witness :
  exists b,
    matches_path (mk "https://github.com/org/repo/" EmptyString
                    (Some "registry"%string) None) EmptyString = Ok b
    /\ (b = true <->
        "https://github.com/org/repo/"%string = EmptyString
        \/ ends_with "/" "https://github.com/org/repo/" = true).
Proof.
  exact (empty_path_matches "https://github.com/org/repo/"
           (Some "registry"%string) None
           (mk "https://github.com/org/repo/" EmptyString
              (Some "registry"%string) None) eq_refl).
Defined.

(** X9. Under a source, [git_url] counts only through the name it gives:
    two packages with the same source, module directory and name have the
    same identity, answer every path alike, and neither sorts before the
    other. *)
Theorem source_hides_git_url (g1 g2 : string) (s m : option string) (P1 P2 : t) :
  __init__ g1 s m = Ok P1 ->
  __init__ g2 s m = Ok P2 ->
  present s ->
  name P1 = name P2 ->
  __str__ P1 = __str__ P2
  /\ (forall path, matches_path P1 path = matches_path P2 path)
  /\ __lt__ P1 P2 = false
  /\ __lt__ P2 P1 = false.
Proof.
  intros H1 H2 Hs Hn. apply init_inv in H1, H2; subst P1 P2.
  simpl in Hn.
  assert (Hstr : __str__ (mk g1 (last_segment g1) s m)
                 = __str__ (mk g2 (last_segment g2) s m)).
  { unfold __str__; simpl. rewrite Hs, Hn. reflexivity. }
  split; [exact Hstr|]. split.
  - intros path. unfold matches_path. rewrite Hstr. simpl. now rewrite Hs.
  - unfold __lt__. rewrite Hstr. split; apply str_ltb_irrefl.
Qed.

Lemma source_hides_git_url_witness :
  let P1 := mk "https://github.com/org/repo" "repo" (Some "registry"%string) None in
  let P2 := mk "https://example.net/else/repo" "repo" (Some "registry"%string) None in
  __str__ P1 = __str__ P2
  /\ (forall path, matches_path P1 path = matches_path P2 path)
  /\ __lt__ P1 P2 = false
  /\ __lt__ P2 P1 = false.
Proof.
  exact (source_hides_git_url "https://github.com/org/repo"
           "https://example.net/else/repo" (Some "registry"%string) None
           (mk "https://github.com/org/repo" "repo" (Some "registry"%string) None)
           (mk "https://example.net/else/repo" "repo" (Some "registry"%string) None)
           eq_refl eq_refl eq_refl eq_refl).
Defined.

(** ** The order on packages *)

(** X10. [<] on packages is transitive. *)
Theorem lt_transitive (a b c : t) :
  __lt__ a b = true -> __lt__ b c = true -> __lt__ a c = true.
Proof. unfold __lt__. apply str_ltb_trans. Qed.

Lemma lt_transitive_witness :
  __lt__ (mk "x/repo" "repo" (Some "a"%string) None)
         (mk "x/repo" "repo" (Some "c"%string) None) = true.
Proof.
  exact (lt_transitive (mk "x/repo" "repo" (Some "a"%string) None)
           (mk "x/repo" "repo" (Some "b"%string) None)
           (mk "x/repo" "repo" (Some "c"%string) None) eq_refl eq_refl).
Defined.

(** X11. [<] on packages is asymmetric: of two packages at most one sorts
    before the other. *)
Theorem lt_asymmetric (a b : t) :
  __lt__ a b = true -> __lt__ b a = false.
Proof.
  unfold __lt__. intros Hab. apply not_true_is_false. intros Hba.
  pose proof (str_ltb_trans _ _ _ Hab Hba) as H.
  now rewrite str_ltb_irrefl in H.
Qed.

Lemma lt_asymmetric_witness :
  __lt__ (mk "x/repo" "repo" (Some "b"%string) None)
         (mk "x/repo" "repo" (Some "a"%string) None) = false.
Proof.
  exact (lt_asymmetric (mk "x/repo" "repo" (Some "a"%string) None)
           (mk "x/repo" "repo" (Some "b"%string) None) eq_refl).
Defined.

(** X12. Two packages are left unordered by [<], neither before the other,
    exactly when their identities are the same string. *)
Theorem lt_unordered_iff (a b : t) :
  __lt__ a b = false /\ __lt__ b a = false <-> __str__ a = __str__ b.
Proof.
  unfold __lt__. split.
  - intros [Hab Hba]. now apply str_ltb_connected.
  - intros ->. split; apply str_ltb_irrefl.
Qed.
